(** * kodo-python: registration of coder stacks (create_helpers.hpp)

    A shallow embedding of [src/kodo_python/create_helpers.hpp].  The header
    expands a coder template over the four finite fields of fifi and, for each
    field, registers a factory type and then an encoder or decoder type with
    the host runtime.  The registrars themselves ([factory.hpp], [encoder.hpp],
    [decoder.hpp], [resolve_field_name.hpp]) are other headers of the project;
    the driver is verified here against an arbitrary host, and the naming
    scheme of the registrars is modelled separately, from the specification. *)

From Stdlib Require Import List String Ascii Bool Arith Lia.
Import ListNotations.
Open Scope string_scope.
Open Scope list_scope.

(** ** Type-level data of the header *)

(** [fifi::binary], [fifi::binary4], [fifi::binary8], [fifi::binary16]. *)
Inductive Field : Type := binary | binary4 | binary8 | binary16.

(** The members a [meta::typelist] can hold in this header: [kodo::enable_trace]. *)
Inductive Capability : Type := enable_trace.

(** The three class templates instantiated by the header. *)
Inductive Kind : Type := Factory | Encoder | Decoder.

(** The two drivers: [create_encoder] and [create_decoder]. *)
Inductive Role : Type := Encode | Decode.

Definition role_kind (r : Role) : Kind :=
  match r with Encode => Encoder | Decode => Decoder end.

Definition Field_eqb (f g : Field) : bool :=
  match f, g with
  | binary, binary | binary4, binary4 | binary8, binary8 | binary16, binary16 => true
  | _, _ => false
  end.

Definition Kind_eqb (k l : Kind) : bool :=
  match k, l with
  | Factory, Factory | Encoder, Encoder | Decoder, Decoder => true
  | _, _ => false
  end.

Section Calls.

(** The identity of a coder template ([template<class, class, class...> class Coder]). *)
Context {Coder : Type}.

(** One registrar call [kind<Coder, Field, meta::typelist<caps...>>(stack)]. *)
Record Call : Type := mkCall {
  call_kind : Kind;
  call_coder : Coder;
  call_field : Field;
  call_caps : list Capability;
  call_stack : string
}.

(** A call together with the host's answer: [true] when it returned, [false]
    when it threw. *)
Record Attempt : Type := mkAttempt {
  attempt_call : Call;
  attempt_ok : bool
}.

End Calls.

Arguments Call : clear implicits.
Arguments Attempt : clear implicits.

(** ** The host runtime and the effect of a call

    A host answers a registrar call on its current state with a new state and
    either normal return or an error (a C++ exception).  *)
Definition Host (Coder World Err : Type) : Type :=
  Call Coder -> World -> World * (Err + unit).

(** State threaded through the header's functions: the calls issued so far,
    with their answers, and the state of the host. *)
Record Session (Coder World : Type) : Type := mkSession {
  attempts : list (Attempt Coder);
  world : World
}.

Arguments mkSession {Coder World} _ _.
Arguments attempts {Coder World} _.
Arguments world {Coder World} _.

(** State and exception monad: an exception keeps the state reached so far and
    skips the rest of the computation. *)
Definition M (Coder World Err A : Type) : Type :=
  Session Coder World -> Session Coder World * (Err + A).

Definition ret {Coder World Err A} (a : A) : M Coder World Err A :=
  fun s => (s, inr a).

Definition bind {Coder World Err A B}
    (m : M Coder World Err A) (k : A -> M Coder World Err B) : M Coder World Err B :=
  fun s =>
    match m s with
    | (s', inr a) => k a s'
    | (s', inl e) => (s', inl e)
    end.

Notation "m1 ;; m2" := (bind m1 (fun _ => m2))
  (at level 61, right associativity).

Section Driver.

Context {Coder World Err : Type}.
Variable host : Host Coder World Err.

Local Abbreviation Cmd := (M Coder World Err unit).

(** A registrar call: the host is asked, the attempt is recorded, and the
    host's error, if any, propagates. *)
Definition registrar (c : Call Coder) : Cmd :=
  fun s =>
    match host c (world s) with
    | (w, inr _) => (mkSession (attempts s ++ [mkAttempt c true]) w, inr tt)
    | (w, inl e) => (mkSession (attempts s ++ [mkAttempt c false]) w, inl e)
    end.

(** [factory<Coder, Field, TypeList>(stack)] *)
Definition factory (C : Coder) (F : Field) (caps : list Capability) (stack : string) : Cmd :=
  registrar (mkCall Factory C F caps stack).

(** [encoder<Coder, Field, TypeList>(stack)] *)
Definition encoder (C : Coder) (F : Field) (caps : list Capability) (stack : string) : Cmd :=
  registrar (mkCall Encoder C F caps stack).

(** [decoder<Coder, Field, TypeList>(stack)] *)
Definition decoder (C : Coder) (F : Field) (caps : list Capability) (stack : string) : Cmd :=
  registrar (mkCall Decoder C F caps stack).

Definition create_factory_and_encoder (C : Coder) (F : Field) (stack : string) : Cmd :=
  (* First create the factory type *)
  factory C F [enable_trace] stack ;;
  (* Then create the corresponding encoder type *)
  encoder C F [enable_trace] stack.

Definition create_factory_and_decoder (C : Coder) (F : Field) (stack : string) : Cmd :=
  (* First create the factory type *)
  factory C F [enable_trace] stack ;;
  (* Then create the corresponding decoder type *)
  decoder C F [enable_trace] stack.

Definition create_encoder (C : Coder) (stack : string) : Cmd :=
  create_factory_and_encoder C binary stack ;;
  create_factory_and_encoder C binary4 stack ;;
  create_factory_and_encoder C binary8 stack ;;
  create_factory_and_encoder C binary16 stack.

Definition create_decoder (C : Coder) (stack : string) : Cmd :=
  create_factory_and_decoder C binary stack ;;
  create_factory_and_decoder C binary4 stack ;;
  create_factory_and_decoder C binary8 stack ;;
  create_factory_and_decoder C binary16 stack.

(** The pair registrar and the driver, selected by role. *)
Definition create_factory_and_role (r : Role) : Coder -> Field -> string -> Cmd :=
  match r with
  | Encode => create_factory_and_encoder
  | Decode => create_factory_and_decoder
  end.

Definition driver (r : Role) : Coder -> string -> Cmd :=
  match r with
  | Encode => create_encoder
  | Decode => create_decoder
  end.

(** One invocation, observed from outside: the attempts it made, the host
    state it left and how it ended. *)
Definition invoke (m : Cmd) (w : World) : Session Coder World * (Err + unit) :=
  m (mkSession [] w).

(** Calls issued one after the other until one throws. *)
Fixpoint issue_all (cs : list (Call Coder)) : Cmd :=
  match cs with
  | [] => ret tt
  | c :: cs' => registrar c ;; issue_all cs'
  end.

(** The host state after the host accepted every call of [cs] in turn;
    [None] when it rejected one of them. *)
Fixpoint accept_all (cs : list (Call Coder)) (w : World) : option World :=
  match cs with
  | [] => Some w
  | c :: cs' =>
      match host c w with
      | (w', inr _) => accept_all cs' w'
      | (_, inl _) => None
      end
  end.

End Driver.

(** ** The expansion as the specification words it

    For each of the four field variants, in the order binary, binary4,
    binary8, binary16: the factory registrar, then the registrar of the role,
    both with the capability list holding tracing alone. *)
Definition field_order : list Field := [binary; binary4; binary8; binary16].

Definition spec_pair {Coder} (r : Role) (C : Coder) (stack : string) (F : Field)
  : list (Call Coder) :=
  [mkCall Factory C F [enable_trace] stack;
   mkCall (role_kind r) C F [enable_trace] stack].

Definition spec_expansion {Coder} (r : Role) (C : Coder) (stack : string)
  : list (Call Coder) :=
  flat_map (spec_pair r C stack) field_order.

Definition accepted {Coder} (c : Call Coder) : Attempt Coder := mkAttempt c true.
Definition rejected {Coder} (c : Call Coder) : Attempt Coder := mkAttempt c false.

Definition is_kind {Coder} (k : Kind) (a : Attempt Coder) : bool :=
  Kind_eqb (call_kind (attempt_call a)) k.

(** ** The host registry

    Modelled from the spec: the registrars of [factory.hpp], [encoder.hpp] and
    [decoder.hpp], the field tags of [resolve_field_name.hpp] and the host
    runtime's registry are not part of this header.  The specification gives
    the host one operation, "register native type T under name N", which fails
    on a name that is already present and has no other effect, and derives the
    name from the stack identifier, a tag of the field and a tag of the role
    (full_rlnc_binary_factory, full_rlnc_binary16_encoder, ...). *)

(** Modelled from the spec: the textual tag of a field variant
    ([resolve_field_name.hpp] is not part of this header). *)
Definition resolve_field_name (F : Field) : string :=
  match F with
  | binary => "binary"
  | binary4 => "binary4"
  | binary8 => "binary8"
  | binary16 => "binary16"
  end.

(** Modelled from the spec: the tag of the registered class template. *)
Definition kind_tag (k : Kind) : string :=
  match k with
  | Factory => "factory"
  | Encoder => "encoder"
  | Decoder => "decoder"
  end.

(** Modelled from the spec: the part of a derived name that follows the stack
    identifier. *)
Definition name_suffix (F : Field) (k : Kind) : string :=
  ("_" ++ resolve_field_name F ++ "_" ++ kind_tag k)%string.

(** Modelled from the spec: the name a call registers its type under. *)
Definition derived_name (stack : string) (F : Field) (k : Kind) : string :=
  (stack ++ name_suffix F k)%string.

Definition call_name {Coder} (c : Call Coder) : string :=
  derived_name (call_stack c) (call_field c) (call_kind c).

(** A registered native type and the name it was registered under. *)
Record Binding (Coder : Type) : Type := mkBinding {
  binding_name : string;
  binding_kind : Kind;
  binding_coder : Coder;
  binding_field : Field;
  binding_caps : list Capability
}.

Arguments mkBinding {Coder} _ _ _ _ _.
Arguments binding_name {Coder} _.
Arguments binding_kind {Coder} _.
Arguments binding_coder {Coder} _.
Arguments binding_field {Coder} _.
Arguments binding_caps {Coder} _.

(** The registry, in insertion order. *)
Definition Registry (Coder : Type) : Type := list (Binding Coder).

Inductive RegistryError : Type :=
  | NamingCollision (name : string).

Definition registered {Coder} (name : string) (reg : Registry Coder) : bool :=
  existsb (String.eqb name) (map binding_name reg).

Definition binding_of {Coder} (c : Call Coder) : Binding Coder :=
  mkBinding (call_name c) (call_kind c) (call_coder c) (call_field c) (call_caps c).

(** Modelled from the spec: "register native type T under name N", failing on
    a name collision and leaving the registry as it was. *)
Definition registry_host {Coder} : Host Coder (Registry Coder) RegistryError :=
  fun c reg =>
    if registered (call_name c) reg
    then (reg, inl (NamingCollision (call_name c)))
    else (reg ++ [binding_of c], inr tt).

(** ** Sample data *)

(** Coder templates of the examples. *)
Inductive SampleCoder : Type := full_rlnc_encoder | full_rlnc_decoder.

(** A registry that already holds the name of the third field's encoder. *)
Definition taken_binary8_encoder : Registry SampleCoder :=
  [mkBinding "full_rlnc_binary8_encoder" Encoder full_rlnc_decoder binary8 []].

(** The accepted registrations of one field place its pair in a state: none,
    the factory alone, the factory and the role type, or a role type whose
    factory was not accepted.  Within one driver invocation every call names
    the same coder template and stack, so the field identifies the pair. *)
Inductive PairState : Type :=
  | Unregistered
  | FactoryRegistered
  | FactoryAndRoleRegistered
  | RoleWithoutFactory.

Definition accepted_for {Coder} (F : Field) (factory_side : bool) (a : Attempt Coder) : bool :=
  attempt_ok a
  && Field_eqb (call_field (attempt_call a)) F
  && Bool.eqb (Kind_eqb (call_kind (attempt_call a)) Factory) factory_side.

Definition pair_state {Coder} (F : Field) (done : list (Attempt Coder)) : PairState :=
  match existsb (accepted_for F true) done, existsb (accepted_for F false) done with
  | false, false => Unregistered
  | true, false => FactoryRegistered
  | true, true => FactoryAndRoleRegistered
  | false, true => RoleWithoutFactory
  end.

(** The moves of the state machine: stay, or advance by one state.  No move
    leaves or enters the state of a role type without its factory. *)
Definition advances (s s' : PairState) : bool :=
  match s, s' with
  | Unregistered, Unregistered
  | Unregistered, FactoryRegistered
  | FactoryRegistered, FactoryRegistered
  | FactoryRegistered, FactoryAndRoleRegistered
  | FactoryAndRoleRegistered, FactoryAndRoleRegistered => true
  | _, _ => false
  end.

(** Whether the host returned normally. *)
Definition answer_ok {World Err} (x : World * (Err + unit)) : bool :=
  match snd x with
  | inr _ => true
  | inl _ => false
  end.

(** The host state after the host was asked the calls [cs] in turn, whatever
    it answered. *)
Definition replay {Coder World Err} (host : Host Coder World Err)
    (cs : list (Call Coder)) (w : World) : World :=
  fold_left (fun w0 c => fst (host c w0)) cs w.

(** A list of attempts records the host's own answers: each attempt carries
    the answer the host gives to its call on the state reached so far. *)
Fixpoint faithful {Coder World Err} (host : Host Coder World Err)
    (done : list (Attempt Coder)) (w : World) : Prop :=
  match done with
  | [] => True
  | a :: done' =>
      attempt_ok a = answer_ok (host (attempt_call a) w)
      /\ faithful host done' (fst (host (attempt_call a) w))
  end.

(** A host that accepts every call: the driver runs to its end. *)
Definition permissive_host {Coder} : Host Coder unit Empty_set :=
  fun _ w => (w, inr tt).

(** The attempts of a sequence of calls that went through its first [n]
    calls and, when [thrown], had the next one rejected. *)
Definition attempts_upto {Coder} (cs : list (Call Coder)) (n : nat) (thrown : bool)
  : list (Attempt Coder) :=
  map accepted (firstn n cs)
  ++ (if thrown then map rejected (firstn 1 (skipn n cs)) else []).

(** A host of the examples that serves one stack identifier only: it answers
    like the registry for "full_rlnc" and rejects every other call. *)
Definition full_rlnc_only_host : Host SampleCoder (Registry SampleCoder) RegistryError :=
  fun c reg =>
    if String.eqb (call_stack c) "full_rlnc"
    then registry_host c reg
    else (reg, inl (NamingCollision (call_name c))).

(** * Properties *)

(** ** Sequencing *)

Lemma firstn_through {A} (pre : list A) (c : A) (post : list A) :
  firstn (S (List.length pre)) (pre ++ c :: post) = pre ++ [c].
Proof.
  induction pre as [| x pre IH]; [reflexivity |].
  cbn [List.length app]. rewrite firstn_cons, IH. reflexivity.
Qed.

Section Sequencing.

Context {Coder World Err : Type}.
Variable host : Host Coder World Err.

Lemma issue_all_cons c cs s :
  issue_all host (c :: cs) s =
  match host c (world s) with
  | (w, inr _) => issue_all host cs (mkSession (attempts s ++ [accepted c]) w)
  | (w, inl e) => (mkSession (attempts s ++ [rejected c]) w, inl e)
  end.
Proof.
  cbn [issue_all]; unfold bind, registrar.
  destruct (host c (world s)) as [w [e | u]]; reflexivity.
Qed.

(** The pair registrars and the drivers issue the calls of the expansion. *)
Lemma pair_issue_all r C F stack s :
  create_factory_and_role host r C F stack s =
  issue_all host (spec_pair r C stack F) s.
Proof.
  destruct r; cbn; unfold create_factory_and_encoder, create_factory_and_decoder,
    factory, encoder, decoder, bind, ret, registrar;
  repeat match goal with
         | |- context [host ?c ?w] => destruct (host c w) as [? [? | []]]; cbn
         end; reflexivity.
Qed.

Lemma driver_issue_all r C stack s :
  driver host r C stack s = issue_all host (spec_expansion r C stack) s.
Proof.
  destruct r; cbn; unfold create_encoder, create_decoder,
    create_factory_and_encoder, create_factory_and_decoder,
    factory, encoder, decoder, bind, ret, registrar;
  repeat match goal with
         | |- context [host ?c ?w] => destruct (host c w) as [? [? | []]]; cbn
         end; reflexivity.
Qed.

(** What a run of [issue_all] leaves behind, by how it ended. *)
Lemma issue_all_returns cs : forall s s',
  issue_all host cs s = (s', inr tt) ->
  attempts s' = attempts s ++ map accepted cs
  /\ accept_all host cs (world s) = Some (world s').
Proof.
  induction cs as [| c cs IH]; intros s s' H.
  - cbn in H. unfold ret in H. inversion H; subst. rewrite app_nil_r. auto.
  - rewrite issue_all_cons in H. cbn [accept_all].
    destruct (host c (world s)) as [w [e | u]]; [discriminate |].
    apply IH in H. cbn in H. destruct H as [Ha Hw].
    rewrite Ha, <- app_assoc. auto.
Qed.

Lemma issue_all_throws cs : forall s s' e,
  issue_all host cs s = (s', inl e) ->
  exists pre c post w,
    cs = pre ++ c :: post
    /\ attempts s' = attempts s ++ map accepted pre ++ [rejected c]
    /\ accept_all host pre (world s) = Some w
    /\ host c w = (world s', inl e).
Proof.
  induction cs as [| c cs IH]; intros s s' e H.
  - cbn in H. discriminate.
  - rewrite issue_all_cons in H.
    destruct (host c (world s)) as [w [e' | u]] eqn:Hc.
    + inversion H; subst. exists [], c, cs, (world s). cbn. auto.
    + apply IH in H. destruct H as (pre & c' & post & w' & -> & Ha & Hw & Hr).
      exists (c :: pre), c', post, w'. cbn in *. rewrite Hc.
      rewrite Ha, <- app_assoc. auto.
Qed.

(** Either way the attempts are an initial segment of the calls. *)
Lemma issue_all_segment cs s :
  exists n, n <= List.length cs /\
    map attempt_call (attempts (fst (issue_all host cs s))) =
    map attempt_call (attempts s) ++ firstn n cs.
Proof.
  destruct (issue_all host cs s) as [s' [e | []]] eqn:H; cbn.
  - apply issue_all_throws in H.
    destruct H as (pre & c & post & w & -> & Ha & _ & _).
    exists (S (List.length pre)). split.
    + rewrite List.length_app. cbn. lia.
    + rewrite Ha, !map_app, map_map. cbn. rewrite map_id.
      f_equal. symmetry. apply (firstn_through pre c post).
  - apply issue_all_returns in H. destruct H as [Ha _].
    exists (List.length cs). split; [lia |].
    rewrite Ha, map_app, map_map. cbn. rewrite map_id, firstn_all. reflexivity.
Qed.

(** A property of the host state that every registrar call keeps is kept by
    any sequence of calls. *)
Lemma issue_all_keeps (P : World -> Prop) :
  (forall c w, P w -> P (fst (host c w))) ->
  forall cs s, P (world s) -> P (world (fst (issue_all host cs s))).
Proof.
  intros HP. induction cs as [| c cs IH]; intros s Hs; [exact Hs |].
  rewrite issue_all_cons. specialize (HP c (world s) Hs).
  destruct (host c (world s)) as [w [e | u]]; cbn in *; [exact HP |].
  apply IH. exact HP.
Qed.

End Sequencing.

Lemma Forall_initial_segment {A} (P : A -> Prop) (l : list A) :
  Forall P l -> forall n, Forall P (firstn n l).
Proof.
  induction 1 as [| x l Hx _ IH]; intros [| n]; cbn; constructor; auto.
Qed.

Lemma firstn_exact {A} (pre post : list A) :
  firstn (List.length pre) (pre ++ post) = pre.
Proof. induction pre as [| x pre IH]; cbn; [reflexivity | now rewrite IH]. Qed.

Lemma skipn_exact {A} (pre post : list A) :
  skipn (List.length pre) (pre ++ post) = post.
Proof. induction pre as [| x pre IH]; cbn; [reflexivity | exact IH]. Qed.

Lemma nth_error_initial_segment {A} (l : list A) : forall n i x,
  nth_error (firstn n l) i = Some x -> nth_error l i = Some x.
Proof.
  induction l as [| y l IH]; intros [| n] [| i] x H; cbn in *;
    try discriminate; auto.
  apply (IH n i x H).
Qed.

(** ** One invocation against an arbitrary host *)

Section Invocation.

Context {Coder World Err : Type}.
Variable host : Host Coder World Err.

Lemma invoke_driver r C stack w :
  invoke (driver host r C stack) w =
  issue_all host (spec_expansion r C stack) (mkSession [] w).
Proof. unfold invoke. apply driver_issue_all. Qed.

Lemma invoke_pair r C F stack w :
  invoke (create_factory_and_role host r C F stack) w =
  issue_all host (spec_pair r C stack F) (mkSession [] w).
Proof. unfold invoke. apply pair_issue_all. Qed.

Lemma driver_returns r C stack w s :
  invoke (driver host r C stack) w = (s, inr tt) ->
  attempts s = map accepted (spec_expansion r C stack)
  /\ accept_all host (spec_expansion r C stack) w = Some (world s).
Proof.
  rewrite invoke_driver. intros H. apply issue_all_returns in H. exact H.
Qed.

Lemma driver_throws r C stack w s e :
  invoke (driver host r C stack) w = (s, inl e) ->
  exists pre c post wk,
    spec_expansion r C stack = pre ++ c :: post
    /\ attempts s = map accepted pre ++ [rejected c]
    /\ accept_all host pre w = Some wk
    /\ host c wk = (world s, inl e).
Proof.
  rewrite invoke_driver. intros H. apply issue_all_throws in H. exact H.
Qed.

Lemma driver_segment r C stack w :
  exists n, n <= 8 /\
    map attempt_call (attempts (fst (invoke (driver host r C stack) w))) =
    firstn n (spec_expansion r C stack).
Proof.
  rewrite invoke_driver.
  destruct (issue_all_segment host (spec_expansion r C stack) (mkSession [] w))
    as (n & Hn & Hs).
  exists n. split; [exact Hn | exact Hs].
Qed.

(** An invocation is fixed by how far it got and whether it was stopped. *)
Lemma driver_attempts_enum r C stack w :
  exists n thrown, n <= 8 /\
    attempts (fst (invoke (driver host r C stack) w)) =
    attempts_upto (spec_expansion r C stack) n thrown.
Proof.
  assert (Hlen : List.length (spec_expansion r C stack) = 8)
    by (destruct r; reflexivity).
  destruct (invoke (driver host r C stack) w) as [s [e | []]] eqn:H; cbn [fst].
  - apply driver_throws in H.
    destruct H as (pre & c & post & wk & Hx & Ha & _ & _).
    exists (List.length pre), true. rewrite Hx in Hlen |- *.
    rewrite List.length_app in Hlen. cbn in Hlen. split; [lia |].
    unfold attempts_upto. rewrite firstn_exact, skipn_exact. exact Ha.
  - apply driver_returns in H. destruct H as [Ha _].
    exists 8, false. split; [lia |].
    unfold attempts_upto. rewrite <- Hlen, firstn_all, app_nil_r. exact Ha.
Qed.

(** A rejected call ends the sequence where it stands. *)
Lemma issue_all_stops_at pre : forall c post s wk w' e,
  accept_all host pre (world s) = Some wk ->
  host c wk = (w', inl e) ->
  issue_all host (pre ++ c :: post) s =
  (mkSession (attempts s ++ map accepted pre ++ [rejected c]) w', inl e).
Proof.
  induction pre as [| p pre IH]; intros c post s wk w' e Hacc Hrej.
  - cbn in Hacc. inversion Hacc; subst wk.
    cbn [app]. rewrite issue_all_cons, Hrej. reflexivity.
  - cbn [app]. rewrite issue_all_cons. cbn [accept_all] in Hacc.
    destruct (host p (world s)) as [w1 [e1 | u]]; [discriminate Hacc |].
    rewrite (IH c post (mkSession (attempts s ++ [accepted p]) w1) wk w' e Hacc Hrej).
    cbn [attempts map]. rewrite <- app_assoc. reflexivity.
Qed.

End Invocation.

(** ** Derived names *)

Lemma append_cancel (s a b : string) :
  (s ++ a)%string = (s ++ b)%string -> a = b.
Proof.
  induction s as [| ch s IH]; cbn; intros H; [exact H |].
  apply IH. now inversion H.
Qed.

Lemma derived_name_inj stack F k F' k' :
  derived_name stack F k = derived_name stack F' k' -> F = F' /\ k = k'.
Proof.
  unfold derived_name. intros H. apply append_cancel in H.
  destruct F, F', k, k'; cbn in H; solve [auto | discriminate H].
Qed.

Lemma expansion_names_distinct {Coder} r (C : Coder) stack :
  NoDup (map call_name (spec_expansion r C stack)).
Proof.
  destruct r; cbn;
  repeat (constructor;
          [ cbn; intros H;
            repeat (destruct H as [H | H];
                    [apply append_cancel in H; discriminate H |]);
            exact H | ]);
  constructor.
Qed.

(** ** The registry host *)

Section RegistryHost.

Context {Coder : Type}.

Lemma registered_app name (reg reg' : Registry Coder) :
  registered name (reg ++ reg') = registered name reg || registered name reg'.
Proof. unfold registered. now rewrite map_app, existsb_app. Qed.

Lemma registered_binding_of (c : Call Coder) :
  registered (call_name c) [binding_of c] = true.
Proof. unfold registered. cbn. now rewrite String.eqb_refl. Qed.

Lemma registered_other name (c : Call Coder) :
  name <> call_name c -> registered name [binding_of c] = false.
Proof.
  intros H. unfold registered. cbn.
  apply String.eqb_neq in H. now rewrite H.
Qed.

Lemma registry_host_taken c (reg : Registry Coder) :
  registered (call_name c) reg = true ->
  registry_host c reg = (reg, inl (NamingCollision (call_name c))).
Proof. unfold registry_host. now intros ->. Qed.

Lemma registry_host_free c (reg : Registry Coder) :
  registered (call_name c) reg = false ->
  registry_host c reg = (reg ++ [binding_of c], inr tt).
Proof. unfold registry_host. now intros ->. Qed.

(** The host only appends: a registered name stays registered. *)
Lemma registry_host_keeps name c (reg : Registry Coder) :
  registered name reg = true -> registered name (fst (registry_host c reg)) = true.
Proof.
  intros H. unfold registry_host.
  destruct (registered (call_name c) reg); cbn [fst]; [exact H |].
  rewrite registered_app, H. reflexivity.
Qed.

(** After a call, accepted or not, its name is registered. *)
Lemma registry_host_leaves c (reg : Registry Coder) :
  registered (call_name c) (fst (registry_host c reg)) = true.
Proof.
  unfold registry_host.
  destruct (registered (call_name c) reg) eqn:H; cbn [fst]; [exact H |].
  rewrite registered_app, registered_binding_of. apply orb_true_r.
Qed.

(** Calls with fresh, distinct names are all accepted. *)
Lemma issue_all_fresh (cs : list (Call Coder)) : forall done reg,
  NoDup (map call_name cs) ->
  (forall c, In c cs -> registered (call_name c) reg = false) ->
  issue_all registry_host cs (mkSession done reg) =
  (mkSession (done ++ map accepted cs) (reg ++ map binding_of cs), inr tt).
Proof.
  induction cs as [| c cs IH]; intros done reg Hnd Hfree.
  - cbn. unfold ret. now rewrite !app_nil_r.
  - rewrite issue_all_cons. cbn [world attempts].
    rewrite registry_host_free by (apply Hfree; now left).
    inversion Hnd as [| ? ? Hnotin Hnd']; subst.
    rewrite IH; [cbn; now rewrite <- !app_assoc | exact Hnd' |].
    intros c' Hin. rewrite registered_app, Hfree by (now right).
    apply registered_other. intros Heq. apply Hnotin.
    rewrite <- Heq. now apply in_map.
Qed.

(** A sequence whose first name is taken stops at its first call. *)
Lemma issue_all_blocked c (cs : list (Call Coder)) reg :
  registered (call_name c) reg = true ->
  issue_all registry_host (c :: cs) (mkSession [] reg) =
  (mkSession [rejected c] reg, inl (NamingCollision (call_name c))).
Proof.
  intros H. rewrite issue_all_cons. cbn [world attempts].
  now rewrite registry_host_taken.
Qed.

(** Any sequence that starts with [c] leaves the name of [c] registered. *)
Lemma issue_all_leaves_first c (cs : list (Call Coder)) s :
  registered (call_name c) (world (fst (issue_all registry_host (c :: cs) s))) = true.
Proof.
  rewrite issue_all_cons.
  pose proof (registry_host_leaves c (world s)) as H.
  destruct (registry_host c (world s)) as [reg' [e | u]]; cbn in *; [exact H |].
  apply (issue_all_keeps registry_host (fun reg => registered (call_name c) reg = true)).
  - intros c' reg0. apply registry_host_keeps.
  - exact H.
Qed.

End RegistryHost.

(** ** The host's side of a run *)

Section HostSide.

Context {Coder World Err : Type}.

(** A sequence of calls returns normally exactly when the host accepts each
    call in turn, and then leaves the state the host reached. *)
Lemma issue_all_accepted (host : Host Coder World Err) cs : forall s w',
  accept_all host cs (world s) = Some w' ->
  issue_all host cs s = (mkSession (attempts s ++ map accepted cs) w', inr tt).
Proof.
  induction cs as [| c cs IH]; intros s w' H.
  - cbn in *. inversion H; subst. unfold ret. rewrite app_nil_r.
    destruct s; reflexivity.
  - rewrite issue_all_cons. cbn [accept_all] in H.
    destruct (host c (world s)) as [w1 [e | u]]; [discriminate H |].
    rewrite (IH (mkSession (attempts s ++ [accepted c]) w1) w' H).
    cbn [attempts map]. rewrite <- app_assoc. reflexivity.
Qed.

(** Two hosts that answer the calls of a sequence alike make it run alike. *)
Lemma issue_all_ext (h1 h2 : Host Coder World Err) cs :
  (forall c, In c cs -> forall w, h1 c w = h2 c w) ->
  forall s, issue_all h1 cs s = issue_all h2 cs s.
Proof.
  induction cs as [| c cs IH]; intros Hagree s; [reflexivity |].
  rewrite !issue_all_cons, <- (Hagree c (or_introl eq_refl)).
  destruct (h1 c (world s)) as [w1 [e | u]]; [reflexivity |].
  apply IH. intros c' Hin. apply Hagree. now right.
Qed.

(** The attempts of a sequence of calls are the host's own record, and the
    host state it leaves is the one the host reached over these calls. *)
Lemma issue_all_faithful (host : Host Coder World Err) cs : forall s,
  exists new,
    attempts (fst (issue_all host cs s)) = attempts s ++ new
    /\ world (fst (issue_all host cs s)) = replay host (map attempt_call new) (world s)
    /\ faithful host new (world s).
Proof.
  induction cs as [| c cs IH]; intros s.
  - exists []. cbn. rewrite app_nil_r. auto.
  - rewrite issue_all_cons.
    destruct (host c (world s)) as [w1 [e | u]] eqn:Hc.
    + exists [rejected c]. cbn. unfold answer_ok. rewrite Hc. cbn. auto.
    + destruct (IH (mkSession (attempts s ++ [accepted c]) w1))
        as (new & Ha & Hw & Hf).
      exists (accepted c :: new). cbn in *. unfold answer_ok.
      rewrite Ha, <- app_assoc, Hc. cbn. auto.
Qed.

(** What every registrar call keeps, any number of calls keep. *)
Lemma replay_keeps (host : Host Coder World Err) (P : World -> Prop) :
  (forall c w, P w -> P (fst (host c w))) ->
  forall cs w, P w -> P (replay host cs w).
Proof.
  intros HP. induction cs as [| c cs IH]; intros w Hw; [exact Hw |].
  cbn. apply IH, HP, Hw.
Qed.

Lemma replay_from_segment (host : Host Coder World Err) cs k w :
  replay host cs w = replay host (skipn k cs) (replay host (firstn k cs) w).
Proof.
  unfold replay. rewrite <- fold_left_app, firstn_skipn. reflexivity.
Qed.

End HostSide.

(** ** The model on concrete inputs *)

Example decoder_driver_on_empty_registry :
  map binding_name
      (world (fst (invoke (create_decoder registry_host full_rlnc_decoder "rlnc") []))) =
  ["rlnc_binary_factory"; "rlnc_binary_decoder";
   "rlnc_binary4_factory"; "rlnc_binary4_decoder";
   "rlnc_binary8_factory"; "rlnc_binary8_decoder";
   "rlnc_binary16_factory"; "rlnc_binary16_decoder"]%string.
Proof. reflexivity. Qed.

Example encoder_driver_on_taken_name :
  snd (invoke (create_encoder registry_host full_rlnc_encoder "full_rlnc")
              taken_binary8_encoder) =
  inl (NamingCollision "full_rlnc_binary8_encoder").
Proof. reflexivity. Qed.

Example pair_states_along_a_run :
  let done := attempts (fst (invoke (create_encoder registry_host full_rlnc_encoder "full_rlnc")
                                    taken_binary8_encoder)) in
  map (fun n => pair_state binary4 (firstn n done)) [0; 2; 3; 4; 6] =
  [Unregistered; Unregistered; FactoryRegistered;
   FactoryAndRoleRegistered; FactoryAndRoleRegistered]
  /\ pair_state binary8 done = FactoryRegistered
  /\ pair_state binary16 done = Unregistered.
Proof. repeat split. Qed.

(** * The claims *)

(** C1.  For every coder template, stack identifier and role, an invocation
    of the driver returns normally exactly when the host accepts, one after
    the other, the eight registrations of the expansion: for the fields
    binary, binary4, binary8 and binary16, in this order, the factory and then
    the type of the role.  It then has made exactly these eight registrations,
    all accepted, four of factories and four of the role, and nothing else,
    and it leaves the host in the state the host reached by accepting them. *)
Theorem driver_registers_four_pairs {Coder World Err}
    (host : Host Coder World Err) (r : Role) (C : Coder) (stack : string) (w : World) :
  let expansion :=
    [mkCall Factory C binary [enable_trace] stack;
     mkCall (role_kind r) C binary [enable_trace] stack;
     mkCall Factory C binary4 [enable_trace] stack;
     mkCall (role_kind r) C binary4 [enable_trace] stack;
     mkCall Factory C binary8 [enable_trace] stack;
     mkCall (role_kind r) C binary8 [enable_trace] stack;
     mkCall Factory C binary16 [enable_trace] stack;
     mkCall (role_kind r) C binary16 [enable_trace] stack] in
  let out := invoke (driver host r C stack) w in
  (snd out = inr tt <-> exists w', accept_all host expansion w = Some w')
  /\ (snd out = inr tt ->
      attempts (fst out) = map accepted expansion
      /\ accept_all host expansion w = Some (world (fst out))
      /\ List.length (filter (is_kind Factory) (attempts (fst out))) = 4
      /\ List.length (filter (is_kind (role_kind r)) (attempts (fst out))) = 4
      /\ List.length (attempts (fst out)) = 8).
Proof.
  intros expansion out.
  change expansion with (spec_expansion r C stack). subst out. clear expansion.
  assert (Hret : snd (invoke (driver host r C stack) w) = inr tt ->
                 attempts (fst (invoke (driver host r C stack) w)) =
                 map accepted (spec_expansion r C stack)
                 /\ accept_all host (spec_expansion r C stack) w =
                    Some (world (fst (invoke (driver host r C stack) w)))).
  { intros Hok.
    destruct (invoke (driver host r C stack) w) as [s [e | []]] eqn:H;
      [discriminate Hok |].
    apply driver_returns in H. exact H. }
  split; [split |].
  - intros Hok. destruct (Hret Hok) as [_ Hacc]. eexists. exact Hacc.
  - intros [w' Hacc]. rewrite invoke_driver.
    rewrite (issue_all_accepted host _ (mkSession [] w) w' Hacc). reflexivity.
  - intros Hok. destruct (Hret Hok) as [Ha Hacc].
    split; [exact Ha | split; [exact Hacc |]].
    rewrite Ha. destruct r; cbn; auto.
Qed.

Lemma driver_registers_four_pairs_witness :
  snd (invoke (driver registry_host Encode full_rlnc_encoder "full_rlnc") []) = inr tt
  /\ accept_all registry_host
       [mkCall Factory full_rlnc_encoder binary [enable_trace] "full_rlnc";
        mkCall Encoder full_rlnc_encoder binary [enable_trace] "full_rlnc";
        mkCall Factory full_rlnc_encoder binary4 [enable_trace] "full_rlnc";
        mkCall Encoder full_rlnc_encoder binary4 [enable_trace] "full_rlnc";
        mkCall Factory full_rlnc_encoder binary8 [enable_trace] "full_rlnc";
        mkCall Encoder full_rlnc_encoder binary8 [enable_trace] "full_rlnc";
        mkCall Factory full_rlnc_encoder binary16 [enable_trace] "full_rlnc";
        mkCall Encoder full_rlnc_encoder binary16 [enable_trace] "full_rlnc"] [] =
     Some (world (fst (invoke (driver registry_host Encode full_rlnc_encoder "full_rlnc") [])))
  /\ map binding_name
         (world (fst (invoke (driver registry_host Encode full_rlnc_encoder "full_rlnc") []))) =
     ["full_rlnc_binary_factory"; "full_rlnc_binary_encoder";
      "full_rlnc_binary4_factory"; "full_rlnc_binary4_encoder";
      "full_rlnc_binary8_factory"; "full_rlnc_binary8_encoder";
      "full_rlnc_binary16_factory"; "full_rlnc_binary16_encoder"]%string.
Proof.
  split; [reflexivity | split; [| reflexivity]].
  exact (proj1 (proj2 (proj2 (driver_registers_four_pairs
                                registry_host Encode full_rlnc_encoder "full_rlnc" [])
                             eq_refl))).
Defined.

(** C6.  In every invocation of a driver each registrar call carries the
    capability list that holds [enable_trace] and nothing else; the factory
    call and the role call of a field therefore carry the same list, in the
    same order.  The same holds for one pair registrar taken alone. *)
Theorem capability_list_is_tracing {Coder World Err}
    (host : Host Coder World Err) (r : Role) (C : Coder) (stack : string) (w : World) :
  Forall (fun a => call_caps (attempt_call a) = [enable_trace])
         (attempts (fst (invoke (driver host r C stack) w)))
  /\ (forall a b,
        In a (attempts (fst (invoke (driver host r C stack) w))) ->
        In b (attempts (fst (invoke (driver host r C stack) w))) ->
        call_caps (attempt_call a) = call_caps (attempt_call b))
  /\ (forall F, exists n,
        map attempt_call
            (attempts (fst (invoke (create_factory_and_role host r C F stack) w))) =
        firstn n [mkCall Factory C F [enable_trace] stack;
                  mkCall (role_kind r) C F [enable_trace] stack]).
Proof.
  assert (Hall : Forall (fun a => call_caps (attempt_call a) = [enable_trace])
                        (attempts (fst (invoke (driver host r C stack) w)))).
  { destruct (driver_segment host r C stack w) as (n & _ & Hs).
    assert (Hc : Forall (fun c : Call Coder => call_caps c = [enable_trace])
                        (map attempt_call
                           (attempts (fst (invoke (driver host r C stack) w))))).
    { rewrite Hs. apply Forall_initial_segment.
      destruct r; cbn; repeat constructor. }
    rewrite Forall_map in Hc. exact Hc. }
  split; [exact Hall | split].
  - intros a b Ha Hb. rewrite Forall_forall in Hall.
    rewrite (Hall a Ha), (Hall b Hb). reflexivity.
  - intros F. rewrite invoke_pair.
    destruct (issue_all_segment host (spec_pair r C stack F) (mkSession [] w))
      as (n & _ & Hs).
    exists n. exact Hs.
Qed.

(** C8.  Every invocation of a driver ends, with a result, after at most
    eight registrar calls, and after exactly eight when none of them throws. *)
Theorem driver_is_bounded {Coder World Err}
    (host : Host Coder World Err) (r : Role) (C : Coder) (stack : string) (w : World) :
  exists s res,
    invoke (driver host r C stack) w = (s, res)
    /\ List.length (attempts s) <= 8
    /\ (res = inr tt <-> List.length (attempts s) = 8 /\ Forall (fun a => attempt_ok a = true) (attempts s)).
Proof.
  destruct (invoke (driver host r C stack) w) as [s res] eqn:H.
  exists s, res. split; [reflexivity |].
  destruct res as [e | []].
  - apply driver_throws in H.
    destruct H as (pre & c & post & wk & Hx & Ha & _ & _).
    assert (Hlen : List.length (pre ++ c :: post) = 8)
      by (rewrite <- Hx; destruct r; reflexivity).
    rewrite List.length_app in Hlen. cbn in Hlen.
    rewrite Ha, List.length_app, List.length_map. cbn. split; [lia |].
    split; [discriminate |].
    intros [_ Hf]. rewrite Forall_app in Hf. destruct Hf as [_ Hf].
    inversion Hf as [| ? ? Hbad _]. discriminate Hbad.
  - apply driver_returns in H. destruct H as [Ha _].
    rewrite Ha, List.length_map.
    assert (Hlen : List.length (spec_expansion r C stack) = 8)
      by (destruct r; reflexivity).
    rewrite Hlen. split; [lia |]. split; [| reflexivity].
    intros _. split; [reflexivity |].
    rewrite Forall_map. apply Forall_forall. reflexivity.
Qed.

(** C7.  When the host rejects a registration at its turn, after it accepted
    the calls before it, the invocation ends there with the host's error: the
    rejected call is the last attempt and is made once, no later call of the
    expansion is issued, and the host state is the one the host left at the
    rejected call, so what the earlier calls registered stays. *)
Theorem failure_aborts_expansion {Coder World Err}
    (host : Host Coder World Err) (r : Role) (C : Coder) (stack : string) (w : World)
    (pre : list (Call Coder)) (c : Call Coder) (post : list (Call Coder))
    (wk w' : World) (e : Err) :
  spec_expansion r C stack = pre ++ c :: post ->
  accept_all host pre w = Some wk ->
  host c wk = (w', inl e) ->
  invoke (driver host r C stack) w =
  (mkSession (map accepted pre ++ [rejected c]) w', inl e).
Proof.
  intros Hx Hacc Hrej. rewrite invoke_driver, Hx.
  apply (issue_all_stops_at host pre c post (mkSession [] w) wk w' e Hacc Hrej).
Qed.

Lemma failure_aborts_expansion_witness :
  invoke (driver registry_host Encode full_rlnc_encoder "full_rlnc") taken_binary8_encoder =
  (mkSession
     (map accepted
        [mkCall Factory full_rlnc_encoder binary [enable_trace] "full_rlnc";
         mkCall Encoder full_rlnc_encoder binary [enable_trace] "full_rlnc";
         mkCall Factory full_rlnc_encoder binary4 [enable_trace] "full_rlnc";
         mkCall Encoder full_rlnc_encoder binary4 [enable_trace] "full_rlnc";
         mkCall Factory full_rlnc_encoder binary8 [enable_trace] "full_rlnc"]
      ++ [rejected (mkCall Encoder full_rlnc_encoder binary8 [enable_trace] "full_rlnc")])
     (taken_binary8_encoder ++
      [mkBinding "full_rlnc_binary_factory" Factory full_rlnc_encoder binary [enable_trace];
       mkBinding "full_rlnc_binary_encoder" Encoder full_rlnc_encoder binary [enable_trace];
       mkBinding "full_rlnc_binary4_factory" Factory full_rlnc_encoder binary4 [enable_trace];
       mkBinding "full_rlnc_binary4_encoder" Encoder full_rlnc_encoder binary4 [enable_trace];
       mkBinding "full_rlnc_binary8_factory" Factory full_rlnc_encoder binary8 [enable_trace]]),
   inl (NamingCollision "full_rlnc_binary8_encoder")).
Proof.
  eapply (failure_aborts_expansion registry_host Encode full_rlnc_encoder "full_rlnc"
            taken_binary8_encoder
            _ _
            [mkCall Factory full_rlnc_encoder binary16 [enable_trace] "full_rlnc";
             mkCall Encoder full_rlnc_encoder binary16 [enable_trace] "full_rlnc"]).
  - reflexivity.
  - reflexivity.
  - reflexivity.
Defined.

(** C10.  The registrar calls of an invocation are fixed by the coder
    template, the role and the stack identifier: whatever the host and its
    state, the calls issued are an initial segment of one sequence that depends
    on the arguments alone, two invocations agree on every call both of them
    issue, two invocations that both run to their end record the same attempts,
    and every call is handed the stack identifier and the coder template the
    driver received, unchanged. *)
Theorem driver_calls_fixed_by_arguments {Coder W1 E1 W2 E2}
    (h1 : Host Coder W1 E1) (h2 : Host Coder W2 E2)
    (r : Role) (C : Coder) (stack : string) (w1 : W1) (w2 : W2) :
  let calls1 := map attempt_call (attempts (fst (invoke (driver h1 r C stack) w1))) in
  let calls2 := map attempt_call (attempts (fst (invoke (driver h2 r C stack) w2))) in
  (snd (invoke (driver h1 r C stack) w1) = inr tt ->
   snd (invoke (driver h2 r C stack) w2) = inr tt ->
   attempts (fst (invoke (driver h1 r C stack) w1)) =
   attempts (fst (invoke (driver h2 r C stack) w2)))
  /\ (forall i c1 c2,
        nth_error calls1 i = Some c1 -> nth_error calls2 i = Some c2 -> c1 = c2)
  /\ (exists n, calls1 = firstn n (spec_expansion r C stack))
  /\ Forall (fun c => call_stack c = stack /\ call_coder c = C) calls1.
Proof.
  intros calls1 calls2.
  destruct (driver_segment h1 r C stack w1) as (n1 & _ & Hs1).
  destruct (driver_segment h2 r C stack w2) as (n2 & _ & Hs2).
  fold calls1 in Hs1. fold calls2 in Hs2.
  repeat split.
  - intros Hok1 Hok2.
    destruct (invoke (driver h1 r C stack) w1) as [s1 [e1 | []]] eqn:H1;
      [discriminate Hok1 |].
    destruct (invoke (driver h2 r C stack) w2) as [s2 [e2 | []]] eqn:H2;
      [discriminate Hok2 |].
    apply driver_returns in H1, H2. cbn [fst].
    destruct H1 as [-> _], H2 as [-> _]. reflexivity.
  - intros i c1 c2 Hi1 Hi2. rewrite Hs1 in Hi1. rewrite Hs2 in Hi2.
    apply nth_error_initial_segment in Hi1, Hi2. congruence.
  - exists n1. exact Hs1.
  - rewrite Hs1. apply Forall_initial_segment.
    destruct r; cbn; repeat constructor.
Qed.

Lemma driver_calls_fixed_by_arguments_witness :
  attempts (fst (invoke (driver registry_host Decode full_rlnc_decoder "full_rlnc") [])) =
  attempts (fst (invoke (driver permissive_host Decode full_rlnc_decoder "full_rlnc") tt)).
Proof.
  apply (driver_calls_fixed_by_arguments registry_host permissive_host
           Decode full_rlnc_decoder "full_rlnc" [] tt);
    reflexivity.
Defined.

(** C2.  In the sequence of registrations of an invocation, whatever the host
    does:
    - every registration of a role type, accepted or not, comes strictly after
      the accepted registration of the factory of the same coder template,
      field, capability list and stack;
    - the attempts are the host's own record (each carries the answer the host
      gave on the state reached so far), and the state the invocation leaves
      is exactly the state the host reached over the attempted calls: the
      driver itself undoes and alters nothing, also when a registrar throws;
    - hence whatever holds of the host state after any number of the attempts
      and is kept by every registrar call (a binding being registered, with a
      host that removes none) still holds when the invocation ends;
    - the state of each field's pair, read after each attempt in turn, starts
      unregistered and at each attempt stays or advances by one step, to
      factory registered and then to factory and role registered; a role type
      without its factory never occurs. *)
Theorem factory_precedes_role {Coder World Err}
    (host : Host Coder World Err) (r : Role) (C : Coder) (stack : string) (w : World) :
  let done := attempts (fst (invoke (driver host r C stack) w)) in
  let final := world (fst (invoke (driver host r C stack) w)) in
  (forall i a,
      nth_error done i = Some a ->
      call_kind (attempt_call a) <> Factory ->
      exists j, j < i /\
        nth_error done j =
        Some (accepted (mkCall Factory (call_coder (attempt_call a))
                               (call_field (attempt_call a))
                               (call_caps (attempt_call a))
                               (call_stack (attempt_call a)))))
  /\ faithful host done w
  /\ final = replay host (map attempt_call done) w
  /\ (forall (P : World -> Prop) (k : nat),
        (forall c w', P w' -> P (fst (host c w'))) ->
        P (replay host (firstn k (map attempt_call done)) w) -> P final)
  /\ (forall F,
        pair_state F (firstn 0 done) = Unregistered
        /\ forall n,
             advances (pair_state F (firstn n done))
                      (pair_state F (firstn (S n) done)) = true).
Proof.
  intros done final.
  assert (Hhost : faithful host done w
                  /\ final = replay host (map attempt_call done) w).
  { subst done final. rewrite invoke_driver.
    destruct (issue_all_faithful host (spec_expansion r C stack) (mkSession [] w))
      as (new & Ha & Hw & Hf).
    cbn [attempts world app] in Ha, Hw, Hf. rewrite Ha, Hw. auto. }
  destruct Hhost as [Hfaith Hfinal].
  destruct (driver_attempts_enum host r C stack w) as (n & thrown & Hn & Hd).
  fold done in Hd. clearbody done final.
  assert (Hcases : n = 0 \/ n = 1 \/ n = 2 \/ n = 3 \/ n = 4 \/ n = 5
                   \/ n = 6 \/ n = 7 \/ n = 8) by lia.
  clear Hn. split; [| split; [exact Hfaith | split; [exact Hfinal | split]]].
  - clear Hfaith Hfinal. intros i a Hi Hk. subst done.
    decompose [or] Hcases; subst n; destruct thrown, r; cbn in Hi;
    destruct i as [| [| [| [| [| [| [| [| [| i]]]]]]]]]; cbn in Hi;
    try discriminate Hi;
    inversion Hi; subst a; cbn in Hk |- *;
    first [ congruence
          | match goal with
            | |- exists j, j < S ?k /\ _ => exists k; split; [lia | reflexivity]
            end ].
  - intros P k HP Hk. rewrite Hfinal.
    rewrite (replay_from_segment host (map attempt_call done) k w).
    apply (replay_keeps host P HP). exact Hk.
  - clear Hfaith Hfinal. intros F. split; [reflexivity |]. intros k. subst done.
    decompose [or] Hcases; subst n; destruct thrown, r, F;
    destruct k as [| [| [| [| [| [| [| [| [| k]]]]]]]]]; reflexivity.
Qed.

Lemma factory_precedes_role_witness :
  registered "full_rlnc_binary4_factory" taken_binary8_encoder = false
  /\ snd (invoke (driver registry_host Encode full_rlnc_encoder "full_rlnc")
                 taken_binary8_encoder) =
     inl (NamingCollision "full_rlnc_binary8_encoder")
  /\ registered "full_rlnc_binary4_factory"
       (world (fst (invoke (driver registry_host Encode full_rlnc_encoder "full_rlnc")
                           taken_binary8_encoder))) = true.
Proof.
  split; [reflexivity | split; [reflexivity |]].
  destruct (factory_precedes_role registry_host Encode full_rlnc_encoder "full_rlnc"
              taken_binary8_encoder) as (_ & _ & _ & Hkeep & _).
  apply (Hkeep (fun reg => registered "full_rlnc_binary4_factory" reg = true) 3).
  - intros c reg. apply registry_host_keeps.
  - reflexivity.
Defined.

(** ** Against the registry *)

Section RegistryClaims.

Context {Coder : Type}.

Lemma first_factory_name r (C : Coder) stack :
  exists rest,
    spec_expansion r C stack = mkCall Factory C binary [enable_trace] stack :: rest.
Proof. destruct r; cbn; eexists; reflexivity. Qed.

(** Whatever its outcome, a driver invocation leaves the name of the first
    factory registered. *)
Lemma driver_leaves_first_factory r (C : Coder) stack reg :
  registered (derived_name stack binary Factory)
             (world (fst (invoke (driver registry_host r C stack) reg))) = true.
Proof.
  rewrite invoke_driver.
  destruct (first_factory_name r C stack) as [rest ->].
  apply (issue_all_leaves_first (mkCall Factory C binary [enable_trace] stack)).
Qed.

(** With that name taken, a driver invocation stops at its first call. *)
Lemma driver_blocked r (C : Coder) stack reg :
  registered (derived_name stack binary Factory) reg = true ->
  invoke (driver registry_host r C stack) reg =
  (mkSession [rejected (mkCall Factory C binary [enable_trace] stack)] reg,
   inl (NamingCollision (derived_name stack binary Factory))).
Proof.
  intros H. rewrite invoke_driver.
  destruct (first_factory_name r C stack) as [rest ->].
  apply (issue_all_blocked (mkCall Factory C binary [enable_trace] stack)). exact H.
Qed.

Lemma driver_after_driver r1 r2 (C : Coder) stack reg :
  invoke (driver registry_host r2 C stack) (world (fst (invoke (driver registry_host r1 C stack) reg))) =
  (mkSession [rejected (mkCall Factory C binary [enable_trace] stack)]
             (world (fst (invoke (driver registry_host r1 C stack) reg))),
   inl (NamingCollision (derived_name stack binary Factory))).
Proof. apply driver_blocked, driver_leaves_first_factory. Qed.

(** On a registry that holds none of the eight names the driver registers
    all of them. *)
Lemma driver_on_fresh_registry r (C : Coder) stack reg :
  (forall c, In c (spec_expansion r C stack) -> registered (call_name c) reg = false) ->
  invoke (driver registry_host r C stack) reg =
  (mkSession (map accepted (spec_expansion r C stack))
             (reg ++ map binding_of (spec_expansion r C stack)),
   inr tt).
Proof.
  intros H. rewrite invoke_driver.
  apply (issue_all_fresh (spec_expansion r C stack) [] reg);
    [apply expansion_names_distinct | exact H].
Qed.

Lemma pair_after_pair r1 r2 (C : Coder) F stack reg :
  invoke (create_factory_and_role registry_host r2 C F stack)
         (world (fst (invoke (create_factory_and_role registry_host r1 C F stack) reg))) =
  (mkSession [rejected (mkCall Factory C F [enable_trace] stack)]
             (world (fst (invoke (create_factory_and_role registry_host r1 C F stack) reg))),
   inl (NamingCollision (derived_name stack F Factory))).
Proof.
  rewrite !invoke_pair. unfold spec_pair.
  apply (issue_all_blocked (mkCall Factory C F [enable_trace] stack)).
  apply (issue_all_leaves_first (mkCall Factory C F [enable_trace] stack)).
Qed.

End RegistryClaims.

(** C3.  Invoking the driver again for the same coder template, role and
    stack identifier is not idempotent.  The registry left by the first
    invocation holds the name of the first factory; on it the second
    invocation attempts that name again and fails with a naming collision at
    this first registration, with no other attempt and the registry as the
    first invocation left it.  (On an empty registry the first invocation
    itself returns normally.) *)
Theorem second_invocation_collides {Coder}
    (r : Role) (C : Coder) (stack : string) (reg : Registry Coder) :
  let reg1 := world (fst (invoke (driver registry_host r C stack) reg)) in
  registered (derived_name stack binary Factory) reg1 = true
  /\ invoke (driver registry_host r C stack) reg1 =
     (mkSession [rejected (mkCall Factory C binary [enable_trace] stack)] reg1,
      inl (NamingCollision (derived_name stack binary Factory)))
  /\ snd (invoke (driver registry_host r C stack) []) = inr tt.
Proof.
  intros reg1. subst reg1. split; [| split].
  - apply driver_leaves_first_factory.
  - apply driver_after_driver.
  - rewrite driver_on_fresh_registry; reflexivity.
Qed.

(** C4.  The eight names derived for the calls of one driver invocation are
    pairwise distinct; and registering the same coder template and field under
    the same stack identifier a second time, through either pair registrar or
    through a single registrar call, meets a naming collision at the first
    name and changes nothing. *)
Theorem derived_names_distinct_and_colliding {Coder}
    (r : Role) (C : Coder) (stack : string) :
  (let names := map (fun a => call_name (attempt_call a))
                    (attempts (fst (invoke (driver permissive_host r C stack) tt))) in
   List.length names = 8 /\ NoDup names)
  /\ (forall F r1 r2 (reg : Registry Coder),
        let reg1 := world (fst (invoke (create_factory_and_role registry_host r1 C F stack) reg)) in
        invoke (create_factory_and_role registry_host r2 C F stack) reg1 =
        (mkSession [rejected (mkCall Factory C F [enable_trace] stack)] reg1,
         inl (NamingCollision (derived_name stack F Factory))))
  /\ (forall (c : Call Coder) (reg : Registry Coder),
        registry_host c (fst (registry_host c reg)) =
        (fst (registry_host c reg), inl (NamingCollision (call_name c)))).
Proof.
  split; [| split].
  - assert (Ha : attempts (fst (invoke (driver permissive_host r C stack) tt)) =
                 map accepted (spec_expansion r C stack))
      by (destruct r; reflexivity).
    cbv zeta. rewrite Ha, map_map. cbn [attempt_call accepted].
    split; [destruct r; reflexivity |].
    apply expansion_names_distinct.
  - intros F r1 r2 reg. apply pair_after_pair.
  - intros c reg. apply registry_host_taken, registry_host_leaves.
Qed.

(** C5.  On an empty registry the encoder driver with stack identifier
    "full_rlnc" returns normally and leaves exactly eight bindings, whose
    names are, in the order of registration, full_rlnc_binary_factory,
    full_rlnc_binary_encoder, full_rlnc_binary4_factory,
    full_rlnc_binary4_encoder, full_rlnc_binary8_factory,
    full_rlnc_binary8_encoder, full_rlnc_binary16_factory and
    full_rlnc_binary16_encoder. *)
Theorem full_rlnc_encoder_names {Coder} (C : Coder) :
  snd (invoke (create_encoder registry_host C "full_rlnc") []) = inr tt
  /\ map binding_name
         (world (fst (invoke (create_encoder registry_host C "full_rlnc") []))) =
     ["full_rlnc_binary_factory"; "full_rlnc_binary_encoder";
      "full_rlnc_binary4_factory"; "full_rlnc_binary4_encoder";
      "full_rlnc_binary8_factory"; "full_rlnc_binary8_encoder";
      "full_rlnc_binary16_factory"; "full_rlnc_binary16_encoder"]%string
  /\ map binding_kind
         (world (fst (invoke (create_encoder registry_host C "full_rlnc") []))) =
     [Factory; Encoder; Factory; Encoder; Factory; Encoder; Factory; Encoder].
Proof. repeat split. Qed.

(** C9.  The factory registration of a pair does not depend on the role: the
    encoder and the decoder pair registrar issue the same factory call first
    (same coder template, field, capability list and stack) and get the same
    answer to it.  Hence, after the driver of one role has run for a coder
    template and stack identifier, the driver of the other role fails with a
    naming collision at its first factory registration, attempts nothing else
    and leaves the registry as it found it. *)
Theorem factory_registration_ignores_role {Coder World Err}
    (host : Host Coder World Err) (C : Coder) (F : Field) (stack : string)
    (w : World) (reg : Registry Coder) :
  (firstn 1 (attempts (fst (invoke (create_factory_and_encoder host C F stack) w))) =
   firstn 1 (attempts (fst (invoke (create_factory_and_decoder host C F stack) w)))
   /\ map attempt_call
          (firstn 1 (attempts (fst (invoke (create_factory_and_encoder host C F stack) w)))) =
      [mkCall Factory C F [enable_trace] stack])
  /\ (let reg1 := world (fst (invoke (create_encoder registry_host C stack) reg)) in
      invoke (create_decoder registry_host C stack) reg1 =
      (mkSession [rejected (mkCall Factory C binary [enable_trace] stack)] reg1,
       inl (NamingCollision (derived_name stack binary Factory))))
  /\ (let reg1 := world (fst (invoke (create_decoder registry_host C stack) reg)) in
      invoke (create_encoder registry_host C stack) reg1 =
      (mkSession [rejected (mkCall Factory C binary [enable_trace] stack)] reg1,
       inl (NamingCollision (derived_name stack binary Factory)))).
Proof.
  split; [| split].
  - pose proof (invoke_pair host Encode C F stack w) as He.
    pose proof (invoke_pair host Decode C F stack w) as Hd.
    cbn [create_factory_and_role] in He, Hd. rewrite He, Hd. clear He Hd.
    unfold spec_pair. rewrite !issue_all_cons. cbn [world attempts app].
    destruct (host (mkCall Factory C F [enable_trace] stack) w) as [w1 [e | u]];
      [cbn; auto |].
    rewrite !issue_all_cons. cbn [world attempts app role_kind].
    destruct (host (mkCall Encoder C F [enable_trace] stack) w1) as [w2 [e | u2]];
    destruct (host (mkCall Decoder C F [enable_trace] stack) w1) as [w3 [e' | u3]];
    cbn; auto.
  - apply (driver_after_driver Encode Decode).
  - apply (driver_after_driver Decode Encode).
Qed.

(** * Further properties of the header *)

Lemma NoDup_initial_segment {A} (l : list A) :
  NoDup l -> forall n, NoDup (firstn n l).
Proof.
  induction 1 as [| x l Hx _ IH]; intros [| n]; cbn; try constructor; auto.
  intros Hin. apply Hx. clear - Hin.
  revert n Hin. induction l as [| y l IHl]; intros [| n] Hin; cbn in *; try tauto.
  destruct Hin as [-> | Hin]; [now left | right; eauto].
Qed.

Lemma expansion_calls_distinct {Coder} r (C : Coder) stack :
  NoDup (spec_expansion r C stack).
Proof.
  destruct r; cbn;
  repeat (constructor;
          [ cbn; intros H;
            repeat (destruct H as [H | H]; [discriminate H |]);
            exact H | ]);
  constructor.
Qed.

(** X1.  A driver never calls the registrar of the other role, whatever the
    host answers: [create_encoder] and [create_factory_and_encoder] issue no
    decoder call, [create_decoder] and [create_factory_and_decoder] issue no
    encoder call. *)
Theorem driver_never_calls_other_role {Coder World Err}
    (host : Host Coder World Err) (C : Coder) (F : Field) (stack : string) (w : World) :
  Forall (fun a => call_kind (attempt_call a) <> Decoder)
         (attempts (fst (invoke (create_encoder host C stack) w)))
  /\ Forall (fun a => call_kind (attempt_call a) <> Encoder)
            (attempts (fst (invoke (create_decoder host C stack) w)))
  /\ Forall (fun a => call_kind (attempt_call a) <> Decoder)
            (attempts (fst (invoke (create_factory_and_encoder host C F stack) w)))
  /\ Forall (fun a => call_kind (attempt_call a) <> Encoder)
            (attempts (fst (invoke (create_factory_and_decoder host C F stack) w))).
Proof.
  assert (Hdrv : forall r k, k <> Factory -> k <> role_kind r ->
            Forall (fun a : Attempt Coder => call_kind (attempt_call a) <> k)
                   (attempts (fst (invoke (driver host r C stack) w)))).
  { intros r k Hf Hr.
    destruct (driver_segment host r C stack w) as (n & _ & Hs).
    rewrite <- (Forall_map attempt_call (fun c => call_kind c <> k)), Hs.
    apply Forall_initial_segment.
    destruct r; cbn in *; repeat constructor; cbn; congruence. }
  assert (Hpair : forall r k, k <> Factory -> k <> role_kind r ->
            Forall (fun a : Attempt Coder => call_kind (attempt_call a) <> k)
                   (attempts (fst (invoke (create_factory_and_role host r C F stack) w)))).
  { intros r k Hf Hr. rewrite invoke_pair.
    destruct (issue_all_segment host (spec_pair r C stack F) (mkSession [] w))
      as (n & _ & Hs).
    rewrite <- (Forall_map attempt_call (fun c => call_kind c <> k)), Hs.
    apply Forall_initial_segment.
    destruct r; cbn in *; repeat constructor; cbn; congruence. }
  repeat split.
  - apply (Hdrv Encode Decoder); discriminate.
  - apply (Hdrv Decode Encoder); discriminate.
  - apply (Hpair Encode Decoder); discriminate.
  - apply (Hpair Decode Encoder); discriminate.
Qed.

(** X2.  Within one invocation no registrar call is issued twice: the calls
    attempted, whatever the host answers, are pairwise distinct. *)
Theorem driver_repeats_no_call {Coder World Err}
    (host : Host Coder World Err) (r : Role) (C : Coder) (stack : string) (w : World) :
  NoDup (map attempt_call (attempts (fst (invoke (driver host r C stack) w)))).
Proof.
  destruct (driver_segment host r C stack w) as (n & _ & Hs).
  rewrite Hs. apply NoDup_initial_segment, expansion_calls_distinct.
Qed.

(** X3.  A driver returns normally and leaves the host in state [w'] exactly
    when the host, asked the eight calls in turn from the initial state,
    accepts each of them and reaches [w']: the driver changes the host state
    through these calls and through nothing else. *)
Theorem driver_returns_iff_host_accepts {Coder World Err}
    (host : Host Coder World Err) (r : Role) (C : Coder) (stack : string) (w w' : World) :
  (exists s, invoke (driver host r C stack) w = (s, inr tt) /\ world s = w')
  <->
  accept_all host
    [mkCall Factory C binary [enable_trace] stack;
     mkCall (role_kind r) C binary [enable_trace] stack;
     mkCall Factory C binary4 [enable_trace] stack;
     mkCall (role_kind r) C binary4 [enable_trace] stack;
     mkCall Factory C binary8 [enable_trace] stack;
     mkCall (role_kind r) C binary8 [enable_trace] stack;
     mkCall Factory C binary16 [enable_trace] stack;
     mkCall (role_kind r) C binary16 [enable_trace] stack] w = Some w'.
Proof.
  change (accept_all host _ w) with (accept_all host (spec_expansion r C stack) w).
  split.
  - intros (s & H & <-). apply driver_returns in H. apply H.
  - intros H. rewrite invoke_driver.
    eexists. split; [apply issue_all_accepted; exact H | reflexivity].
Qed.

(** X4.  A pair registrar has three outcomes and no other.  When the host
    rejects the factory call, the registrar of the role is not called and the
    error is the host's; when the host accepts it, the call of the role is
    made on the state the factory call left, and its rejection is the error of
    the pair; otherwise both are accepted and the pair returns normally.  No
    role type is ever attempted without its accepted factory. *)
Theorem pair_outcomes {Coder World Err}
    (host : Host Coder World Err) (r : Role) (C : Coder) (F : Field)
    (stack : string) (w : World) :
  let f := mkCall Factory C F [enable_trace] stack in
  let t := mkCall (role_kind r) C F [enable_trace] stack in
  (exists w1 e,
      host f w = (w1, inl e)
      /\ invoke (create_factory_and_role host r C F stack) w =
         (mkSession [rejected f] w1, inl e))
  \/ (exists w1 w2 e,
        host f w = (w1, inr tt) /\ host t w1 = (w2, inl e)
        /\ invoke (create_factory_and_role host r C F stack) w =
           (mkSession [accepted f; rejected t] w2, inl e))
  \/ (exists w1 w2,
        host f w = (w1, inr tt) /\ host t w1 = (w2, inr tt)
        /\ invoke (create_factory_and_role host r C F stack) w =
           (mkSession [accepted f; accepted t] w2, inr tt)).
Proof.
  intros f t. rewrite invoke_pair. unfold spec_pair. fold f t.
  rewrite issue_all_cons. cbn [world attempts app].
  destruct (host f w) as [w1 [e | []]] eqn:Hf.
  - left. exists w1, e. auto.
  - rewrite issue_all_cons. cbn [world attempts app].
    destruct (host t w1) as [w2 [e | []]] eqn:Ht.
    + right; left. exists w1, w2, e. auto.
    + right; right. exists w1, w2. auto.
Qed.

(** X5.  An invocation depends on the host only through its answers to the
    eight calls of the expansion: two hosts that answer these calls alike give
    the same attempts, the same host state and the same result, however they
    differ elsewhere. *)
Theorem driver_asks_host_nothing_else {Coder World Err}
    (h1 h2 : Host Coder World Err) (r : Role) (C : Coder) (stack : string) (w : World) :
  (forall c, In c (spec_expansion r C stack) -> forall w0, h1 c w0 = h2 c w0) ->
  invoke (driver h1 r C stack) w = invoke (driver h2 r C stack) w.
Proof.
  intros H. rewrite !invoke_driver. apply issue_all_ext. exact H.
Qed.

Lemma driver_asks_host_nothing_else_witness :
  invoke (driver registry_host Encode full_rlnc_encoder "full_rlnc") taken_binary8_encoder =
  invoke (driver full_rlnc_only_host Encode full_rlnc_encoder "full_rlnc")
         taken_binary8_encoder
  /\ registry_host (mkCall Factory full_rlnc_encoder binary [enable_trace] "rlnc") []
     <> full_rlnc_only_host (mkCall Factory full_rlnc_encoder binary [enable_trace] "rlnc") [].
Proof.
  split; [| discriminate].
  apply (driver_asks_host_nothing_else registry_host full_rlnc_only_host
           Encode full_rlnc_encoder "full_rlnc" taken_binary8_encoder).
  intros c Hin w0. cbn in Hin.
  repeat (destruct Hin as [<- | Hin]; [reflexivity |]).
  destruct Hin.
Defined.

(** X6.  However an invocation ends, with [k] half the number of accepted
    registrations: the fields whose factory and role type were both accepted
    are exactly the first [k] fields of the order binary, binary4, binary8,
    binary16; a field has its factory alone exactly when the number of
    accepted registrations is odd and it is the next field in that order; no
    field has a role type without its factory; and after a normal return all
    four fields are complete.  An invocation that stops early therefore
    leaves no gap among the completed fields. *)
Theorem completed_fields_form_a_prefix {Coder World Err}
    (host : Host Coder World Err) (r : Role) (C : Coder) (stack : string) (w : World) :
  let done := attempts (fst (invoke (driver host r C stack) w)) in
  let count := List.length (filter attempt_ok done) in
  let k := Nat.div2 count in
  k <= 4
  /\ (forall F, pair_state F done = FactoryAndRoleRegistered
                <-> In F (firstn k [binary; binary4; binary8; binary16]))
  /\ (forall F, pair_state F done = FactoryRegistered
                <-> Nat.odd count = true
                    /\ nth_error [binary; binary4; binary8; binary16] k = Some F)
  /\ (forall F, pair_state F done <> RoleWithoutFactory)
  /\ (snd (invoke (driver host r C stack) w) = inr tt -> k = 4).
Proof.
  intros done count k.
  assert (Hret : snd (invoke (driver host r C stack) w) = inr tt -> k = 4).
  { intros Hok. subst k count done.
    destruct (invoke (driver host r C stack) w) as [s [e | []]] eqn:H;
      [discriminate Hok |].
    apply driver_returns in H. destruct H as [Ha _]. cbn [fst].
    rewrite Ha. destruct r; reflexivity. }
  destruct (driver_attempts_enum host r C stack w) as (n & thrown & Hn & Hd).
  fold done in Hd. subst k count. clearbody done. subst done.
  assert (Hcases : n = 0 \/ n = 1 \/ n = 2 \/ n = 3 \/ n = 4 \/ n = 5
                   \/ n = 6 \/ n = 7 \/ n = 8) by lia.
  clear Hn.
  split; [| split; [| split; [| split; [| exact Hret]]]]; clear Hret;
    decompose [or] Hcases; subst n; destruct thrown, r;
    try (cbn; lia);
    intros F; destruct F; cbn;
    first [ discriminate
          | split; intros H;
            first [ discriminate H | reflexivity | tauto
                  | intuition discriminate
                  | split; [reflexivity | reflexivity] ] ].
Qed.
